(** * doris::ObjectPool (be/src/common/object_pool.h)

    A shallow embedding of the object pool: a vector of type-erased
    elements (pointer + deletion function pointer) guarded by a mutex,
    with the operations [add], [add_array], [clear], [acquire_data],
    [size] and the destructor.

    Pools are C++ objects that are passed around by address
    ([acquire_data] takes an [ObjectPool*]), so the pools live in a
    store indexed by their address and every operation is a computation
    on that store.  What a pool does to the outside world (taking and
    dropping its mutex, touching its vector, calling a stored
    [delete_fn]) is recorded, in program order, in a trace. *)

From Stdlib Require Import ZArith.
From stdpp Require Import gmap strings list fin_maps.

Local Open Scope Z_scope.

(** ** Data model *)

(** [void*]: an address; [nullptr] is address 0. *)
Definition ptr := Z.
Definition nullptr : ptr := 0.

(** The template argument [T] of [add<T>] / [add_array<T>]. *)
Definition ctype := string.

(** [using DeleteFn = void (*)(void*)].  The only values ever stored are
    the two captureless lambdas of [add] and [add_array], one pair per
    instantiation [T]:
    - [delete_scalar T] is [[](void* obj) { delete reinterpret_cast<T*>(obj); }]
    - [delete_array T]  is [[](void* obj) { delete[] reinterpret_cast<T*>(obj); }] *)
Inductive DeleteFn :=
| delete_scalar (T : ctype)
| delete_array (T : ctype).

#[global] Instance DeleteFn_eq_dec : EqDecision DeleteFn.
Proof. solve_decision. Defined.

(** [struct Element { void* obj = nullptr; DeleteFn delete_fn; }] *)
Record Element := mkElement { obj : ptr; delete_fn : DeleteFn }.

#[global] Instance Element_eq_dec : EqDecision Element.
Proof. solve_decision. Defined.

(** [class ObjectPool]: [std::vector<Element> _objects] and
    [std::mutex _lock] ([true] when the mutex is held). *)
Record ObjectPool := mkPool { _objects : list Element; _lock : bool }.

(** [ObjectPool() = default]: empty vector, free mutex. *)
Definition new_pool : ObjectPool := mkPool [] false.

(** The address of a pool object ([this], [src]). *)
Definition pool_id := nat.

(** Observable actions, in program order. *)
Inductive Event :=
| EvLock (p : pool_id)                  (* std::lock_guard constructed on p->_lock *)
| EvUnlock (p : pool_id)                (* that guard destroyed *)
| EvVec (p : pool_id)                   (* a statement reads or writes p->_objects *)
| EvCall (fn : DeleteFn) (o : ptr).     (* fn(o) is called *)

#[global] Instance Event_eq_dec : EqDecision Event.
Proof. solve_decision. Defined.

Record World := mkWorld { pools : gmap pool_id ObjectPool; trace : list Event }.

(** What has no defined behaviour in C++ ends the computation. *)
Inductive Fault :=
| NoSuchPool        (* a member function called through a pointer to no live pool *)
| PoolExists        (* constructing a pool at an address already in use *)
| Deadlock          (* locking a std::mutex that is already held *)
| OverlappingRange. (* vector::insert with iterators into the vector itself *)

Inductive Outcome (A : Type) :=
| Ok (a : A) (w : World)
| Ub (f : Fault).
Arguments Ok {A} a w.
Arguments Ub {A} f.

(** ** A state-and-fault monad over the world *)

Definition M (A : Type) : Type := World -> Outcome A.

#[global] Instance M_ret : MRet M := λ A (a : A) w, Ok a w.

#[global] Instance M_bind : MBind M := λ A B (k : A → M B) (m : M A) w,
  match m w with
  | Ok a w' => k a w'
  | Ub f => Ub f
  end.

Definition fault {A} (f : Fault) : M A := λ _, Ub f.

Definition get_pool (p : pool_id) : M ObjectPool :=
  fun w => match pools w !! p with
           | Some P => Ok P w
           | None => Ub NoSuchPool
           end.

Definition put_pool (p : pool_id) (P : ObjectPool) : M unit :=
  fun w => Ok tt (mkWorld (<[p := P]> (pools w)) (trace w)).

Definition emit (e : Event) : M unit :=
  fun w => Ok tt (mkWorld (pools w) (trace w ++ [e])).

Fixpoint for_each {A} (l : list A) (body : A -> M unit) : M unit :=
  match l with
  | [] => mret tt
  | x :: l' => body x ;; for_each l' body
  end.

(** ** The primitives the member functions are written with *)

(** [std::lock_guard<std::mutex> l(_lock);] *)
Definition lock_guard (p : pool_id) : M unit :=
  P ← get_pool p;
  if _lock P then fault Deadlock
  else put_pool p (mkPool (_objects P) true) ;; emit (EvLock p).

(** The guard going out of scope. *)
Definition lock_guard_end (p : pool_id) : M unit :=
  P ← get_pool p;
  put_pool p (mkPool (_objects P) false) ;; emit (EvUnlock p).

(** [_objects.emplace_back(e)] *)
Definition emplace_back (p : pool_id) (e : Element) : M unit :=
  P ← get_pool p;
  put_pool p (mkPool (_objects P ++ [e]) (_lock P)) ;; emit (EvVec p).

(** Reading the elements of [_objects] (for iteration). *)
Definition elements_of (p : pool_id) : M (list Element) :=
  P ← get_pool p; emit (EvVec p) ;; mret (_objects P).

(** [_objects.clear()] *)
Definition vec_clear (p : pool_id) : M unit :=
  P ← get_pool p;
  put_pool p (mkPool [] (_lock P)) ;; emit (EvVec p).

(** [_objects.size()] *)
Definition vec_size (p : pool_id) : M nat :=
  P ← get_pool p; emit (EvVec p) ;; mret (length (_objects P)).

(** [_objects.insert(_objects.end(), src->_objects.begin(), src->_objects.end())].
    The range must not point into the receiving vector. *)
Definition insert_at_end (p src : pool_id) : M unit :=
  if decide (p = src) then fault OverlappingRange
  else
    D ← get_pool src; emit (EvVec src) ;;
    P ← get_pool p;
    put_pool p (mkPool (_objects P ++ _objects D) (_lock P)) ;; emit (EvVec p).

(** [_object.delete_fn(_object.obj)] *)
Definition call_delete_fn (e : Element) : M unit :=
  emit (EvCall (delete_fn e) (obj e)).

(** The storage of the pool object at [p] goes away. *)
Definition drop_pool (p : pool_id) : M unit :=
  fun w => Ok tt (mkWorld (delete p (pools w)) (trace w)).

(** Conversion to [uint64_t]. *)
Definition to_uint64 (z : Z) : Z := z mod 2 ^ 64.

(** ** The member functions *)

(** [ObjectPool()] at address [self]. *)
Definition construct (self : pool_id) : M unit :=
  fun w => match pools w !! self with
           | Some _ => Ub PoolExists
           | None => put_pool self new_pool w
           end.

(** [template <class T> T* add(T* t)] *)
Definition add (self : pool_id) (T : ctype) (t : ptr) : M ptr :=
  lock_guard self ;;
  emplace_back self (mkElement t (delete_scalar T)) ;;
  lock_guard_end self ;;
  mret t.

(** [template <class T> T* add_array(T* t)] *)
Definition add_array (self : pool_id) (T : ctype) (t : ptr) : M ptr :=
  lock_guard self ;;
  emplace_back self (mkElement t (delete_array T)) ;;
  lock_guard_end self ;;
  mret t.

(** [void clear()].  The deletion functions run outside the model:
    a call is recorded, and the vector it iterates over is the one
    read when the loop starts (the destructors of the owned objects
    are required not to come back to the pool that owns them). *)
Definition clear (self : pool_id) : M unit :=
  lock_guard self ;;
  objs ← elements_of self;
  for_each (rev objs) call_delete_fn ;;
  vec_clear self ;;
  lock_guard_end self.

(** [void acquire_data(ObjectPool* src)] *)
Definition acquire_data (self src : pool_id) : M unit :=
  insert_at_end self src ;;
  vec_clear src.

(** [uint64_t size()] *)
Definition size (self : pool_id) : M Z :=
  lock_guard self ;;
  n ← vec_size self;
  lock_guard_end self ;;
  mret (to_uint64 (Z.of_nat n)).

(** [~ObjectPool() { clear(); }], after which the object is gone. *)
Definition destroy (self : pool_id) : M unit :=
  clear self ;;
  drop_pool self.

(** ** Reading a trace *)

(** The calls of deletion functions, oldest first. *)
Fixpoint calls (tr : list Event) : list Element :=
  match tr with
  | [] => []
  | EvCall fn o :: tr' => mkElement o fn :: calls tr'
  | _ :: tr' => calls tr'
  end.

(** Lock discipline: every access to [p->_objects] in [tr] happens
    while [p]'s mutex is held, starting with the mutexes in [held]. *)
Fixpoint guarded (held : list pool_id) (tr : list Event) : bool :=
  match tr with
  | [] => true
  | EvLock p :: tr' => guarded (p :: held) tr'
  | EvUnlock p :: tr' => guarded (filter (fun q => q ≠ p) held) tr'
  | EvVec p :: tr' => bool_decide (p ∈ held) && guarded held tr'
  | EvCall _ _ :: tr' => guarded held tr'
  end.


(** ** The free store

    What a call of a stored [delete_fn] does is fixed by the language,
    not by the pool: [delete p] and [delete[] p] do nothing on a null
    pointer, free a block that was obtained by the matching form of
    [new] for that type, and have no defined behaviour otherwise. *)

Inductive AllocMode := Scalar | Array.

#[global] Instance AllocMode_eq_dec : EqDecision AllocMode.
Proof. solve_decision. Defined.

(** A live block: how it was allocated and for which type. *)
Record Block := mkBlock { blk_mode : AllocMode; blk_type : ctype }.

#[global] Instance Block_eq_dec : EqDecision Block.
Proof. solve_decision. Defined.

(** [delete reinterpret_cast<T*>(p)] ([Scalar]) and
    [delete[] reinterpret_cast<T*>(p)] ([Array]). *)
Definition delete_expr (mode : AllocMode) (T : ctype) (p : ptr)
    (h : gmap Z Block) : option (gmap Z Block) :=
  if decide (p = nullptr) then Some h
  else match h !! p with
       | Some b => if decide (b = mkBlock mode T) then Some (delete p h) else None
       | None => None
       end.

(** The body of the lambda behind a [DeleteFn]. *)
Definition invoke_delete_fn (fn : DeleteFn) (o : ptr) : gmap Z Block → option (gmap Z Block) :=
  match fn with
  | delete_scalar T => delete_expr Scalar T o
  | delete_array T => delete_expr Array T o
  end.

(** The effect of a sequence of [delete_fn] calls on the free store. *)
Fixpoint run_calls (cs : list Element) (h : gmap Z Block) : option (gmap Z Block) :=
  match cs with
  | [] => Some h
  | e :: cs' => h' ← invoke_delete_fn (delete_fn e) (obj e) h; run_calls cs' h'
  end.

(** ** Clients of a pool *)

(** The two ways to hand an object to a pool. *)
Inductive Accept :=
| accept_object (T : ctype) (t : ptr)   (* add<T>(t) *)
| accept_array (T : ctype) (t : ptr).   (* add_array<T>(t) *)

Definition accept (self : pool_id) (a : Accept) : M ptr :=
  match a with
  | accept_object T t => add self T t
  | accept_array T t => add_array self T t
  end.

(** The element an acceptance stores. *)
Definition entry_of (a : Accept) : Element :=
  match a with
  | accept_object T t => mkElement t (delete_scalar T)
  | accept_array T t => mkElement t (delete_array T)
  end.

Definition arg_of (a : Accept) : ptr :=
  match a with
  | accept_object _ t | accept_array _ t => t
  end.

(** A call of a member function on one pool between its construction
    and its destruction. *)
Inductive Method :=
| CallAccept (a : Accept)
| CallClear
| CallSize.

Definition invoke (self : pool_id) (m : Method) : M unit :=
  match m with
  | CallAccept a => accept self a ;; mret tt
  | CallClear => clear self
  | CallSize => size self ;; mret tt
  end.

(** A whole life of one pool: constructed, used, destroyed. *)
Definition lifetime (self : pool_id) (ms : list Method) : M unit :=
  construct self ;; for_each ms (invoke self) ;; destroy self.

(** Everything a list of calls hands to the pool, in order. *)
Fixpoint accepted (ms : list Method) : list Element :=
  match ms with
  | [] => []
  | CallAccept a :: ms' => entry_of a :: accepted ms'
  | _ :: ms' => accepted ms'
  end.

(** A program over several pools. *)
Inductive Op :=
| OpConstruct (p : pool_id)
| OpAccept (p : pool_id) (a : Accept)
| OpClear (p : pool_id)
| OpAcquire (p src : pool_id)
| OpSize (p : pool_id)
| OpDestroy (p : pool_id).

Definition step (o : Op) : M unit :=
  match o with
  | OpConstruct p => construct p
  | OpAccept p a => accept p a ;; mret tt
  | OpClear p => clear p
  | OpAcquire p src => acquire_data p src
  | OpSize p => size p ;; mret tt
  | OpDestroy p => destroy p
  end.

Definition run (ops : list Op) : M unit := for_each ops step.

(** The world before anything was constructed. *)
Definition start : World := mkWorld ∅ [].

(** The event of calling an element's deletion function. *)
Definition call_event (e : Element) : Event := EvCall (delete_fn e) (obj e).

(** The events of one acceptance (or of one [size()]: lock, one access
    to the vector, unlock), and of one [clear()] on a vector [objs]. *)
Definition accept_events (self : pool_id) : list Event :=
  [EvLock self; EvVec self; EvUnlock self].

Definition clear_events (self : pool_id) (objs : list Element) : list Event :=
  [EvLock self; EvVec self] ++ map call_event (rev objs) ++ [EvVec self; EvUnlock self].

(** ** What a sequence of calls amounts to *)

(** The contents of a pool's vector after the calls [ms], starting
    from [objs]. *)
Fixpoint held_after (objs : list Element) (ms : list Method) : list Element :=
  match ms with
  | [] => objs
  | CallAccept a :: ms' => held_after (objs ++ [entry_of a]) ms'
  | CallClear :: ms' => held_after [] ms'
  | CallSize :: ms' => held_after objs ms'
  end.

(** The deletion-function calls made during [ms], oldest first. *)
Fixpoint released_by (objs : list Element) (ms : list Method) : list Element :=
  match ms with
  | [] => []
  | CallAccept a :: ms' => released_by (objs ++ [entry_of a]) ms'
  | CallClear :: ms' => rev objs ++ released_by [] ms'
  | CallSize :: ms' => released_by objs ms'
  end.

(** Entry counts per pool. *)
Definition set_count (p : pool_id) (n : nat) (c : pool_id → nat) : pool_id → nat :=
  λ q, if decide (q = p) then n else c q.

(** How one operation changes the number of entries each pool owns:
    an acceptance adds one, a clear (or the destructor) releases all,
    a transfer moves the donor's entries to the receiver. *)
Definition owned_step (c : pool_id → nat) (o : Op) : pool_id → nat :=
  match o with
  | OpConstruct p => set_count p 0%nat c
  | OpAccept p _ => set_count p (S (c p)) c
  | OpClear p => set_count p 0%nat c
  | OpAcquire p src => set_count src 0%nat (set_count p (c p + c src)%nat c)
  | OpSize _ => c
  | OpDestroy p => set_count p 0%nat c
  end.

(** The number of entries pool [p] owns after the program [ops]:
    accepted or received, and neither released nor handed over. *)
Definition owned (ops : list Op) (p : pool_id) : nat :=
  fold_left owned_step ops (λ _, 0%nat) p.

(** The number of objects the program hands to pool [p] directly. *)
Fixpoint handed_to (p : pool_id) (ops : list Op) : nat :=
  match ops with
  | [] => 0%nat
  | OpAccept q _ :: ops' => ((if decide (q = p) then 1 else 0) + handed_to p ops')%nat
  | _ :: ops' => handed_to p ops'
  end.

(** Every entry held in some pool of a store. *)
Definition held_in (m : gmap pool_id ObjectPool) : list Element :=
  map_to_list m ≫= (λ kv, _objects kv.2).

(** Everything a program hands to its pools, in order. *)
Fixpoint accepted_in (ops : list Op) : list Element :=
  match ops with
  | [] => []
  | OpAccept _ a :: ops' => entry_of a :: accepted_in ops'
  | _ :: ops' => accepted_in ops'
  end.

(** The state invariant between operations: all mutexes free, and the
    vectors as long as the counts say. *)
Definition counted (c : pool_id → nat) (w : World) : Prop :=
  ∀ p P, pools w !! p = Some P → _lock P = false ∧ length (_objects P) = c p.

(** Two pools with one object each. *)
Definition two_pools : World :=
  mkWorld (<[1%nat := mkPool [mkElement 16 (delete_scalar "Row")] false]>
             (<[2%nat := mkPool [mkElement 32 (delete_array "Cell")] false]> ∅)) [].

(** One pool accepts an object and is then drained by another. *)
Definition donation : list Op :=
  [OpConstruct 1%nat; OpConstruct 2%nat;
   OpAccept 2%nat (accept_object "Row" 16); OpAcquire 1%nat 2%nat].

(** ** Owned blocks *)

(** The block a deletion function is written for. *)
Definition block_of (fn : DeleteFn) : Block :=
  match fn with
  | delete_scalar T => mkBlock Scalar T
  | delete_array T => mkBlock Array T
  end.

(** The non-null pointers of a list of elements, in order. *)
Definition pointers (cs : list Element) : list ptr :=
  filter (λ p, p ≠ nullptr) (map obj cs).

(** A batch of acceptances closed by an explicit [clear()]. *)
Definition batch (b : list Accept) : list Method :=
  map CallAccept b ++ [CallClear].

(** Three pools with one object each; the mutex of pool 3 is held. *)
Definition three_pools : World :=
  mkWorld (<[1%nat := mkPool [mkElement 16 (delete_scalar "Row")] false]>
             (<[2%nat := mkPool [mkElement 32 (delete_array "Cell")] false]>
                (<[3%nat := mkPool [mkElement 48 (delete_scalar "Row")] true]> ∅))) [].

(** ** Equations of the member functions *)

Ltac munfold :=
  unfold mbind, M_bind, mret, M_ret, fault, get_pool, put_pool, emit, drop_pool; simpl.

Ltac pool_here := first [apply lookup_insert_eq | reflexivity | done].

Ltac mstep :=
  repeat first
    [ rewrite lookup_insert_eq
    | rewrite insert_insert_eq
    | rewrite <- app_assoc
    | progress simpl ].

Section Equations.
Context (self : pool_id) (w : World) (P : ObjectPool).
Hypothesis Hself : pools w !! self = Some P.
Hypothesis Hfree : _lock P = false.

Lemma for_each_call_delete_fn (l : list Element) (v : World) :
  for_each l call_delete_fn v = Ok tt (mkWorld (pools v) (trace v ++ map call_event l)).
Proof.
  revert v. induction l as [|e l IH]; intros v; simpl.
  - unfold mret, M_ret. rewrite app_nil_r. by destruct v.
  - unfold call_delete_fn at 1. munfold. rewrite IH. simpl.
    by rewrite <- app_assoc.
Qed.

Lemma add_eq T t :
  add self T t w =
  Ok t (mkWorld (<[self := mkPool (_objects P ++ [mkElement t (delete_scalar T)]) false]> (pools w))
                (trace w ++ accept_events self)).
Proof.
  unfold add, lock_guard, emplace_back, lock_guard_end. munfold.
  rewrite Hself, Hfree. by mstep.
Qed.

Lemma add_array_eq T t :
  add_array self T t w =
  Ok t (mkWorld (<[self := mkPool (_objects P ++ [mkElement t (delete_array T)]) false]> (pools w))
                (trace w ++ accept_events self)).
Proof.
  unfold add_array, lock_guard, emplace_back, lock_guard_end. munfold.
  rewrite Hself, Hfree. by mstep.
Qed.

Lemma accept_eq a :
  accept self a w =
  Ok (arg_of a) (mkWorld (<[self := mkPool (_objects P ++ [entry_of a]) false]> (pools w))
                         (trace w ++ accept_events self)).
Proof. destruct a; simpl; [apply add_eq | apply add_array_eq]. Qed.

Lemma clear_eq :
  clear self w =
  Ok tt (mkWorld (<[self := new_pool]> (pools w))
                 (trace w ++ clear_events self (_objects P))).
Proof.
  unfold clear, lock_guard, elements_of, vec_clear, lock_guard_end. munfold.
  rewrite Hself, Hfree. mstep. rewrite for_each_call_delete_fn. by mstep.
Qed.

Lemma size_eq :
  size self w =
  Ok (to_uint64 (Z.of_nat (length (_objects P))))
     (mkWorld (pools w) (trace w ++ accept_events self)).
Proof.
  unfold size, lock_guard, vec_size, lock_guard_end. munfold.
  rewrite Hself, Hfree. mstep. rewrite insert_id; [done|].
  destruct P as [objs lk]; simpl in *. by subst lk.
Qed.

Lemma destroy_eq :
  destroy self w =
  Ok tt (mkWorld (delete self (pools w))
                 (trace w ++ clear_events self (_objects P))).
Proof.
  unfold destroy. unfold mbind at 1, M_bind at 1. rewrite clear_eq.
  unfold drop_pool; simpl. by rewrite delete_insert_eq.
Qed.
End Equations.

Lemma construct_eq self w :
  pools w !! self = None →
  construct self w = Ok tt (mkWorld (<[self := new_pool]> (pools w)) (trace w)).
Proof. intros H. unfold construct. by rewrite H. Qed.

Lemma acquire_data_eq self src w A B :
  self ≠ src →
  pools w !! self = Some A →
  pools w !! src = Some B →
  acquire_data self src w =
  Ok tt (mkWorld (<[src := mkPool [] (_lock B)]>
                    (<[self := mkPool (_objects A ++ _objects B) (_lock A)]> (pools w)))
                 (trace w ++ [EvVec src; EvVec self; EvVec src])).
Proof.
  intros Hne HA HB. unfold acquire_data, insert_at_end, vec_clear.
  rewrite decide_False by done. munfold.
  rewrite HB. simpl. rewrite HA. simpl.
  rewrite lookup_insert_ne by done. rewrite HB. by mstep.
Qed.

(** Calling through a pointer to no live pool. *)
Lemma accept_no_pool self a w : pools w !! self = None → accept self a w = Ub NoSuchPool.
Proof.
  intros H. destruct a; simpl; unfold add, add_array, lock_guard; munfold; by rewrite H.
Qed.

Lemma clear_no_pool self w : pools w !! self = None → clear self w = Ub NoSuchPool.
Proof. intros H. unfold clear, lock_guard. munfold. by rewrite H. Qed.

Lemma size_no_pool self w : pools w !! self = None → size self w = Ub NoSuchPool.
Proof. intros H. unfold size, lock_guard. munfold. by rewrite H. Qed.

Lemma destroy_no_pool self w : pools w !! self = None → destroy self w = Ub NoSuchPool.
Proof. intros H. unfold destroy. unfold mbind, M_bind. by rewrite clear_no_pool. Qed.

Lemma acquire_data_no_pool self src w :
  pools w !! self = None ∨ pools w !! src = None →
  ∃ f, acquire_data self src w = Ub f.
Proof.
  intros H. unfold acquire_data, insert_at_end. case_decide; munfold; [by eexists|].
  destruct (pools w !! src) as [B|] eqn:HB; simpl; [|by eexists].
  destruct H as [H|H]; [|done]. rewrite H. by eexists.
Qed.

Lemma acquire_data_self self w : acquire_data self self w = Ub OverlappingRange.
Proof. unfold acquire_data, insert_at_end. rewrite decide_True by done. by munfold. Qed.

(** ** Reading traces *)

Lemma calls_app tr1 tr2 : calls (tr1 ++ tr2) = calls tr1 ++ calls tr2.
Proof.
  induction tr1 as [|[] tr1 IH]; simpl; try done. by rewrite IH.
Qed.

Lemma calls_call_events l : calls (map call_event l) = l.
Proof.
  induction l as [|[o fn] l IH]; simpl; [done|]. by rewrite IH.
Qed.

Lemma calls_accept_events self : calls (accept_events self) = [].
Proof. done. Qed.

Lemma calls_clear_events self objs : calls (clear_events self objs) = rev objs.
Proof.
  unfold clear_events. rewrite !calls_app, calls_call_events. simpl.
  by rewrite app_nil_r.
Qed.

(** The locking member functions touch the vector only under the lock. *)
Lemma guarded_call_events held l tr :
  guarded held (map call_event l ++ tr) = guarded held tr.
Proof. induction l; simpl; done. Qed.

Lemma accept_events_guarded self : guarded [] (accept_events self) = true.
Proof. simpl. rewrite bool_decide_true; [done | set_solver]. Qed.

Lemma clear_events_guarded self objs : guarded [] (clear_events self objs) = true.
Proof.
  unfold clear_events. simpl. rewrite guarded_call_events. simpl.
  rewrite bool_decide_true; [done | set_solver].
Qed.

(** ** One pool, many calls *)

Lemma invoke_eq self m w objs :
  pools w !! self = Some (mkPool objs false) →
  ∃ tr, invoke self m w =
          Ok tt (mkWorld (<[self := mkPool (held_after objs [m]) false]> (pools w))
                         (trace w ++ tr))
        ∧ calls tr = released_by objs [m].
Proof.
  intros H. destruct m as [a| |]; simpl; unfold mbind, M_bind.
  - erewrite accept_eq by done. eexists. split; [done|]. done.
  - erewrite clear_eq by done. eexists. split; [done|].
    rewrite calls_clear_events. simpl. by rewrite app_nil_r.
  - erewrite size_eq by done. exists (accept_events self). split; [|done].
    unfold mret, M_ret. by rewrite insert_id.
Qed.

Lemma methods_eq self ms : ∀ w objs,
  pools w !! self = Some (mkPool objs false) →
  ∃ tr, for_each ms (invoke self) w =
          Ok tt (mkWorld (<[self := mkPool (held_after objs ms) false]> (pools w))
                         (trace w ++ tr))
        ∧ calls tr = released_by objs ms.
Proof.
  induction ms as [|m ms IH]; intros w objs H.
  - exists []. simpl. unfold mret, M_ret. rewrite app_nil_r, insert_id by done.
    by destruct w.
  - destruct (invoke_eq self m w objs H) as (tr1 & E1 & C1).
    cbn [for_each]. unfold mbind, M_bind. rewrite E1.
    edestruct (IH (mkWorld (<[self := mkPool (held_after objs [m]) false]> (pools w))
                           (trace w ++ tr1)) (held_after objs [m])) as (tr2 & E2 & C2).
    { simpl. apply lookup_insert_eq. }
    rewrite E2. exists (tr1 ++ tr2). simpl. rewrite insert_insert_eq, <- app_assoc.
    rewrite calls_app, C1, C2. destruct m; simpl; rewrite ?app_nil_r; auto.
Qed.

(** Nothing is lost and nothing is released twice: what was released
    and what is still held is what there was and what was accepted. *)
Lemma conservation ms : ∀ objs,
  released_by objs ms ++ held_after objs ms ≡ₚ objs ++ accepted ms.
Proof.
  induction ms as [|[a| |] ms IH]; intros objs; simpl.
  - by rewrite app_nil_r.
  - rewrite IH. by rewrite <- app_assoc.
  - rewrite <- app_assoc, IH. simpl. by rewrite <- Permutation_rev.
  - apply IH.
Qed.

Lemma held_after_accepts accs : ∀ objs,
  held_after objs (map CallAccept accs) = objs ++ map entry_of accs.
Proof.
  induction accs as [|a accs IH]; intros objs; simpl.
  - by rewrite app_nil_r.
  - by rewrite IH, <- app_assoc.
Qed.

Lemma released_by_accepts accs : ∀ objs, released_by objs (map CallAccept accs) = [].
Proof. induction accs as [|a accs IH]; intros objs; simpl; auto. Qed.

Lemma accepted_accepts accs : accepted (map CallAccept accs) = map entry_of accs.
Proof. induction accs as [|a accs IH]; simpl; congruence. Qed.

(** A pool that was constructed and then used by [ms]. *)
Lemma used_pool_eq self ms w :
  pools w !! self = None →
  ∃ tr, (construct self ;; for_each ms (invoke self)) w =
          Ok tt (mkWorld (<[self := mkPool (held_after [] ms) false]> (pools w))
                         (trace w ++ tr))
        ∧ calls tr = released_by [] ms.
Proof.
  intros H. unfold mbind, M_bind. rewrite construct_eq by done.
  edestruct (methods_eq self ms (mkWorld (<[self := new_pool]> (pools w)) (trace w)) [])
    as (tr & E & C); [apply lookup_insert_eq|].
  rewrite E. simpl. rewrite insert_insert_eq. by exists tr.
Qed.

(** ** The claims *)

(** C1 — Single release.  Over the life of a pool (constructed, then
    any sequence of acceptances, clears and size queries, then
    destroyed), each accepted entry's [delete_fn] is called exactly
    once: the calls made are a permutation of the accepted entries,
    however many times [clear()] was called.  A clear calls the
    deletion function of every entry held and empties the vector, so
    the clear after it calls nothing. *)
Theorem single_release self ms w :
  pools w !! self = None →
  (∃ w' cs, lifetime self ms w = Ok tt w'
      ∧ calls (trace w') = calls (trace w) ++ cs
      ∧ cs ≡ₚ accepted ms
      ∧ pools w' = pools w)
  ∧ (∃ w1 w2 cs,
      (construct self ;; for_each ms (invoke self) ;; clear self) w = Ok tt w1
      ∧ calls (trace w1) = calls (trace w) ++ cs
      ∧ cs ≡ₚ accepted ms
      ∧ pools w1 !! self = Some new_pool
      ∧ clear self w1 = Ok tt w2
      ∧ calls (trace w2) = calls (trace w1)).
Proof.
  intros Hnew.
  destruct (used_pool_eq self ms w Hnew) as (tr & E & C).
  unfold mbind, M_bind in E.
  assert (Hperm : released_by [] ms ++ rev (held_after [] ms) ≡ₚ accepted ms).
  { rewrite <- Permutation_rev. apply (conservation ms []). }
  split.
  - unfold lifetime, mbind, M_bind.
    destruct (construct self w) as [[] w0|f]; [|done].
    rewrite E. erewrite destroy_eq by pool_here.
    eexists _, _. split; [done|]. simpl.
    rewrite !calls_app, calls_clear_events, C, <- app_assoc.
    split; [done|]. split; [done|].
    rewrite delete_insert_eq. by apply delete_id.
  - unfold mbind, M_bind.
    destruct (construct self w) as [[] w0|f]; [|done].
    rewrite E. erewrite clear_eq by pool_here.
    eexists _, _, _. split; [done|]. simpl.
    rewrite !calls_app, calls_clear_events, C, <- app_assoc.
    split; [done|]. split; [done|].
    split; [apply lookup_insert_eq|].
    erewrite clear_eq by pool_here.
    split; [done|]. simpl.
    rewrite !calls_app, !calls_clear_events, C. simpl.
    by rewrite app_nil_r, <- app_assoc.
Qed.

Lemma single_release_witness :
  pools start !! 1%nat = None ∧
  ∃ w' cs,
    lifetime 1%nat [CallAccept (accept_object "Row" 16); CallClear; CallClear;
                    CallAccept (accept_array "Cell" 32); CallSize] start = Ok tt w'
    ∧ calls (trace w') = calls (trace start) ++ cs
    ∧ cs ≡ₚ [mkElement 16 (delete_scalar "Row"); mkElement 32 (delete_array "Cell")]
    ∧ pools w' = pools start.
Proof.
  split; [reflexivity|].
  refine (proj1 (single_release 1%nat
           [CallAccept (accept_object "Row" 16); CallClear; CallClear;
            CallAccept (accept_array "Cell" 32); CallSize] start _)).
  reflexivity.
Defined.

(** C2 — Reverse order.  A pool that accepted O1, ..., On in this
    order holds them in this order, and [clear()] calls their deletion
    functions in the order On, ..., O1 and leaves the vector empty. *)
Theorem clear_reverse_order self accs w :
  pools w !! self = None →
  ∃ w1 w2,
    (construct self ;; for_each (map CallAccept accs) (invoke self)) w = Ok tt w1
    ∧ pools w1 !! self = Some (mkPool (map entry_of accs) false)
    ∧ calls (trace w1) = calls (trace w)
    ∧ clear self w1 = Ok tt w2
    ∧ trace w2 = trace w1 ++ [EvLock self; EvVec self]
                          ++ map call_event (rev (map entry_of accs))
                          ++ [EvVec self; EvUnlock self]
    ∧ calls (trace w2) = calls (trace w) ++ rev (map entry_of accs)
    ∧ pools w2 !! self = Some (mkPool [] false).
Proof.
  intros Hnew.
  destruct (used_pool_eq self (map CallAccept accs) w Hnew) as (tr & E & C).
  rewrite held_after_accepts in E. rewrite released_by_accepts in C. simpl in E.
  eexists _, _. split; [exact E|]. simpl.
  split; [apply lookup_insert_eq|].
  rewrite calls_app, C, app_nil_r. split; [done|].
  erewrite clear_eq by pool_here. split; [done|]. simpl.
  split; [done|].
  rewrite !calls_app, calls_clear_events, C, app_nil_r.
  split; [done|]. apply lookup_insert_eq.
Qed.

Lemma clear_reverse_order_witness :
  pools start !! 1%nat = None ∧
  ∃ w1 w2,
    (construct 1%nat ;;
     for_each (map CallAccept [accept_object "Row" 16; accept_array "Cell" 32;
                               accept_object "Row" 48]) (invoke 1%nat)) start = Ok tt w1
    ∧ pools w1 !! 1%nat =
        Some (mkPool [mkElement 16 (delete_scalar "Row"); mkElement 32 (delete_array "Cell");
                      mkElement 48 (delete_scalar "Row")] false)
    ∧ calls (trace w1) = calls (trace start)
    ∧ clear 1%nat w1 = Ok tt w2
    ∧ trace w2 = trace w1 ++ [EvLock 1%nat; EvVec 1%nat]
                          ++ [EvCall (delete_scalar "Row") 48; EvCall (delete_array "Cell") 32;
                              EvCall (delete_scalar "Row") 16]
                          ++ [EvVec 1%nat; EvUnlock 1%nat]
    ∧ calls (trace w2) =
        calls (trace start) ++
        [mkElement 48 (delete_scalar "Row"); mkElement 32 (delete_array "Cell");
         mkElement 16 (delete_scalar "Row")]
    ∧ pools w2 !! 1%nat = Some (mkPool [] false).
Proof.
  split; [reflexivity|].
  apply (clear_reverse_order 1%nat
           [accept_object "Row" 16; accept_array "Cell" 32; accept_object "Row" 48] start).
  reflexivity.
Defined.

(** C3 — Transfer.  For distinct pools A (at [self]) and B (at [src]),
    [A.acquire_data(&B)] leaves A holding its own entries followed by
    B's, in their order, leaves B empty, touches no other pool and
    calls no deletion function; clearing B afterwards calls none
    either, and clearing A calls the deletion functions of the
    transferred entries first, then those of A's earlier entries, each
    group in reverse. *)
Theorem acquire_data_transfers self src w A B :
  self ≠ src →
  pools w !! self = Some A →
  pools w !! src = Some B →
  _lock A = false →
  _lock B = false →
  ∃ w1 w2 w3,
    acquire_data self src w = Ok tt w1
    ∧ pools w1 !! self = Some (mkPool (_objects A ++ _objects B) false)
    ∧ pools w1 !! src = Some (mkPool [] false)
    ∧ (∀ q, q ≠ self → q ≠ src → pools w1 !! q = pools w !! q)
    ∧ calls (trace w1) = calls (trace w)
    ∧ clear src w1 = Ok tt w2
    ∧ calls (trace w2) = calls (trace w)
    ∧ clear self w1 = Ok tt w3
    ∧ calls (trace w3) = calls (trace w) ++ rev (_objects B) ++ rev (_objects A)
    ∧ pools w3 !! self = Some (mkPool [] false)
    ∧ pools w3 !! src = Some (mkPool [] false).
Proof.
  intros Hne HA HB LA LB.
  rewrite (acquire_data_eq self src w A B Hne HA HB), LA, LB.
  set (w1 := mkWorld _ _).
  assert (H1 : pools w1 !! self = Some (mkPool (_objects A ++ _objects B) false)).
  { subst w1; simpl. rewrite lookup_insert_ne by done. apply lookup_insert_eq. }
  assert (H2 : pools w1 !! src = Some (mkPool [] false)).
  { subst w1; simpl. apply lookup_insert_eq. }
  exists w1. rewrite (clear_eq src w1 _ H2 eq_refl), (clear_eq self w1 _ H1 eq_refl).
  eexists _, _. split; [done|]. split; [done|]. split; [done|].
  split. { intros q Hq1 Hq2. subst w1; simpl. by rewrite !lookup_insert_ne. }
  split. { subst w1; simpl. by rewrite calls_app, app_nil_r. }
  split; [done|].
  split. { simpl. rewrite calls_app, calls_clear_events. subst w1; simpl.
           by rewrite calls_app, !app_nil_r. }
  split; [done|].
  split. { simpl. rewrite calls_app, calls_clear_events. subst w1; simpl.
           by rewrite calls_app, app_nil_r, rev_app_distr. }
  split; simpl.
  - apply lookup_insert_eq.
  - rewrite lookup_insert_ne by done. apply H2.
Qed.

Lemma acquire_data_transfers_witness :
  ∃ w1 w2 w3,
    acquire_data 1%nat 2%nat two_pools = Ok tt w1
    ∧ pools w1 !! 1%nat =
        Some (mkPool [mkElement 16 (delete_scalar "Row"); mkElement 32 (delete_array "Cell")] false)
    ∧ pools w1 !! 2%nat = Some (mkPool [] false)
    ∧ (∀ q, q ≠ 1%nat → q ≠ 2%nat → pools w1 !! q = pools two_pools !! q)
    ∧ calls (trace w1) = calls (trace two_pools)
    ∧ clear 2%nat w1 = Ok tt w2
    ∧ calls (trace w2) = calls (trace two_pools)
    ∧ clear 1%nat w1 = Ok tt w3
    ∧ calls (trace w3) =
        calls (trace two_pools) ++
        rev [mkElement 32 (delete_array "Cell")] ++ rev [mkElement 16 (delete_scalar "Row")]
    ∧ pools w3 !! 1%nat = Some (mkPool [] false)
    ∧ pools w3 !! 2%nat = Some (mkPool [] false).
Proof.
  apply (acquire_data_transfers 1%nat 2%nat two_pools
           (mkPool [mkElement 16 (delete_scalar "Row")] false)
           (mkPool [mkElement 32 (delete_array "Cell")] false));
    [lia | reflexivity | reflexivity | reflexivity | reflexivity].
Defined.

(** The deletion forms on the free store. *)
Lemma delete_expr_null mode T h : delete_expr mode T nullptr h = Some h.
Proof. done. Qed.

Lemma delete_expr_match mode T p h :
  p ≠ nullptr → h !! p = Some (mkBlock mode T) →
  delete_expr mode T p h = Some (delete p h).
Proof.
  intros Hp Hb. unfold delete_expr. rewrite decide_False by done.
  rewrite Hb. by rewrite decide_True.
Qed.

Lemma delete_expr_mismatch mode mode' T p h :
  p ≠ nullptr → mode ≠ mode' → h !! p = Some (mkBlock mode' T) →
  delete_expr mode T p h = None.
Proof.
  intros Hp Hm Hb. unfold delete_expr. rewrite decide_False by done.
  rewrite Hb. rewrite decide_False; [done|]. congruence.
Qed.

Lemma invoke_delete_fn_null fn h : invoke_delete_fn fn nullptr h = Some h.
Proof. by destruct fn. Qed.

(** C4 — Allocation-mode fidelity.  [add<T>(t)] stores [t] with a
    deletion function whose body is the single-object [delete] at type
    [T]; [add_array<T>(t)] stores it with one whose body is the array
    [delete[]] at type [T].  That stored function is the one [clear()]
    later calls on [t]; on a block obtained by the matching form of
    [new] it frees the block, on a block of the other form it has no
    defined behaviour. *)
Theorem allocation_mode_fidelity self w P T t :
  pools w !! self = Some P →
  _lock P = false →
  (∃ w1 w2 e,
      add self T t w = Ok t w1
      ∧ pools w1 !! self = Some (mkPool (_objects P ++ [e]) false)
      ∧ obj e = t
      ∧ invoke_delete_fn (delete_fn e) = delete_expr Scalar T
      ∧ clear self w1 = Ok tt w2
      ∧ calls (trace w2) = calls (trace w) ++ e :: rev (_objects P)
      ∧ (∀ h, t ≠ nullptr → h !! t = Some (mkBlock Scalar T) →
              invoke_delete_fn (delete_fn e) (obj e) h = Some (delete t h))
      ∧ (∀ h, t ≠ nullptr → h !! t = Some (mkBlock Array T) →
              invoke_delete_fn (delete_fn e) (obj e) h = None))
  ∧ (∃ w1 w2 e,
      add_array self T t w = Ok t w1
      ∧ pools w1 !! self = Some (mkPool (_objects P ++ [e]) false)
      ∧ obj e = t
      ∧ invoke_delete_fn (delete_fn e) = delete_expr Array T
      ∧ clear self w1 = Ok tt w2
      ∧ calls (trace w2) = calls (trace w) ++ e :: rev (_objects P)
      ∧ (∀ h, t ≠ nullptr → h !! t = Some (mkBlock Array T) →
              invoke_delete_fn (delete_fn e) (obj e) h = Some (delete t h))
      ∧ (∀ h, t ≠ nullptr → h !! t = Some (mkBlock Scalar T) →
              invoke_delete_fn (delete_fn e) (obj e) h = None)).
Proof.
  intros HP HL. split.
  - rewrite (add_eq self w P HP HL). eexists _, _, _. split; [done|]. simpl.
    split; [apply lookup_insert_eq|]. split; [done|]. split; [done|].
    erewrite clear_eq by pool_here. split; [done|]. simpl.
    split.
    { rewrite !calls_app, calls_clear_events, rev_app_distr. simpl.
      by rewrite app_nil_r. }
    split; intros h Hp Hb.
    + by apply delete_expr_match.
    + by apply (delete_expr_mismatch Scalar Array).
  - rewrite (add_array_eq self w P HP HL). eexists _, _, _. split; [done|]. simpl.
    split; [apply lookup_insert_eq|]. split; [done|]. split; [done|].
    erewrite clear_eq by pool_here. split; [done|]. simpl.
    split.
    { rewrite !calls_app, calls_clear_events, rev_app_distr. simpl.
      by rewrite app_nil_r. }
    split; intros h Hp Hb.
    + by apply delete_expr_match.
    + by apply (delete_expr_mismatch Array Scalar).
Qed.

Lemma allocation_mode_fidelity_witness :
  (pools two_pools !! 1%nat = Some (mkPool [mkElement 16 (delete_scalar "Row")] false)) ∧
  ∃ w1 w2 e,
    add 1%nat "Row" 48 two_pools = Ok 48 w1
    ∧ pools w1 !! 1%nat = Some (mkPool ([mkElement 16 (delete_scalar "Row")] ++ [e]) false)
    ∧ obj e = 48
    ∧ invoke_delete_fn (delete_fn e) = delete_expr Scalar "Row"
    ∧ clear 1%nat w1 = Ok tt w2
    ∧ calls (trace w2) = calls (trace two_pools) ++ e :: rev [mkElement 16 (delete_scalar "Row")]
    ∧ (∀ h, 48 ≠ nullptr → h !! 48 = Some (mkBlock Scalar "Row") →
            invoke_delete_fn (delete_fn e) (obj e) h = Some (delete 48 h))
    ∧ (∀ h, 48 ≠ nullptr → h !! 48 = Some (mkBlock Array "Row") →
            invoke_delete_fn (delete_fn e) (obj e) h = None).
Proof.
  split; [reflexivity|].
  refine (proj1 (allocation_mode_fidelity 1%nat two_pools
                   (mkPool [mkElement 16 (delete_scalar "Row")] false) "Row" 48 _ _));
    reflexivity.
Defined.

(** C7 — Null tolerance.  Accepting a null pointer, through either
    acceptance, returns normally and stores an entry like any other;
    the later [clear()] returns normally too and does call the stored
    deletion function on the null pointer, and that call leaves the
    free store as it was, so the calls of the clear act on the free
    store exactly as they would without the null entry. *)
Theorem null_tolerance self w P a :
  arg_of a = nullptr →
  pools w !! self = Some P →
  _lock P = false →
  ∃ w1 w2,
    accept self a w = Ok nullptr w1
    ∧ pools w1 !! self = Some (mkPool (_objects P ++ [entry_of a]) false)
    ∧ clear self w1 = Ok tt w2
    ∧ calls (trace w2) = calls (trace w) ++ entry_of a :: rev (_objects P)
    ∧ pools w2 !! self = Some (mkPool [] false)
    ∧ ∀ h, invoke_delete_fn (delete_fn (entry_of a)) (obj (entry_of a)) h = Some h
           ∧ run_calls (entry_of a :: rev (_objects P)) h = run_calls (rev (_objects P)) h.
Proof.
  intros Hnull HP HL.
  rewrite (accept_eq self w P HP HL), Hnull. eexists _, _. split; [done|]. simpl.
  split; [apply lookup_insert_eq|].
  erewrite clear_eq by pool_here. split; [done|]. simpl.
  split.
  { rewrite !calls_app, calls_clear_events, rev_app_distr. simpl.
    by rewrite app_nil_r. }
  split; [apply lookup_insert_eq|].
  intros h.
  assert (Hobj : obj (entry_of a) = nullptr) by (by destruct a).
  simpl. rewrite Hobj, invoke_delete_fn_null. done.
Qed.

Lemma null_tolerance_witness :
  arg_of (accept_array "Cell" nullptr) = nullptr ∧
  ∃ w1 w2,
    accept 1%nat (accept_array "Cell" nullptr) two_pools = Ok nullptr w1
    ∧ pools w1 !! 1%nat =
        Some (mkPool ([mkElement 16 (delete_scalar "Row")] ++
                      [entry_of (accept_array "Cell" nullptr)]) false)
    ∧ clear 1%nat w1 = Ok tt w2
    ∧ calls (trace w2) =
        calls (trace two_pools) ++
        entry_of (accept_array "Cell" nullptr) :: rev [mkElement 16 (delete_scalar "Row")]
    ∧ pools w2 !! 1%nat = Some (mkPool [] false)
    ∧ ∀ h, invoke_delete_fn (delete_fn (entry_of (accept_array "Cell" nullptr)))
                            (obj (entry_of (accept_array "Cell" nullptr))) h = Some h
           ∧ run_calls (entry_of (accept_array "Cell" nullptr) ::
                        rev [mkElement 16 (delete_scalar "Row")]) h
             = run_calls (rev [mkElement 16 (delete_scalar "Row")]) h.
Proof.
  split; [reflexivity|].
  apply (null_tolerance 1%nat two_pools (mkPool [mkElement 16 (delete_scalar "Row")] false)
           (accept_array "Cell" nullptr)); reflexivity.
Defined.

(** C8 — Clear on an empty pool.  On a newly constructed pool, and on
    a pool that has just been cleared, [clear()] returns normally,
    calls no deletion function and leaves every pool as it was, the
    cleared one empty. *)
Theorem clear_on_empty_pool self w :
  (pools w !! self = None →
   ∃ w1 w2,
     construct self w = Ok tt w1
     ∧ clear self w1 = Ok tt w2
     ∧ calls (trace w2) = calls (trace w1)
     ∧ pools w2 = pools w1
     ∧ pools w2 !! self = Some (mkPool [] false))
  ∧ (∀ P, pools w !! self = Some P → _lock P = false →
     ∃ w1 w2,
       clear self w = Ok tt w1
       ∧ clear self w1 = Ok tt w2
       ∧ calls (trace w2) = calls (trace w1)
       ∧ pools w2 = pools w1
       ∧ pools w2 !! self = Some (mkPool [] false)).
Proof.
  split.
  - intros Hnew. rewrite construct_eq by done. eexists _, _. split; [done|].
    erewrite clear_eq by pool_here. split; [done|]. simpl.
    rewrite calls_app, calls_clear_events, app_nil_r, insert_insert_eq.
    split; [done|]. split; [done|]. apply lookup_insert_eq.
  - intros P HP HL. rewrite (clear_eq self w P HP HL). eexists _, _. split; [done|].
    erewrite clear_eq by pool_here. split; [done|]. simpl.
    rewrite !calls_app, !calls_clear_events, app_nil_r, insert_insert_eq.
    split; [done|]. split; [done|]. apply lookup_insert_eq.
Qed.

Lemma clear_on_empty_pool_witness :
  (pools start !! 1%nat = None ∧
   ∃ w1 w2,
     construct 1%nat start = Ok tt w1
     ∧ clear 1%nat w1 = Ok tt w2
     ∧ calls (trace w2) = calls (trace w1)
     ∧ pools w2 = pools w1
     ∧ pools w2 !! 1%nat = Some (mkPool [] false))
  ∧ (pools two_pools !! 2%nat = Some (mkPool [mkElement 32 (delete_array "Cell")] false) ∧
     ∃ w1 w2,
       clear 2%nat two_pools = Ok tt w1
       ∧ clear 2%nat w1 = Ok tt w2
       ∧ calls (trace w2) = calls (trace w1)
       ∧ pools w2 = pools w1
       ∧ pools w2 !! 2%nat = Some (mkPool [] false)).
Proof.
  split; (split; [reflexivity|]).
  - apply (proj1 (clear_on_empty_pool 1%nat start)). reflexivity.
  - apply (proj2 (clear_on_empty_pool 2%nat two_pools)
             (mkPool [mkElement 32 (delete_array "Cell")] false)); reflexivity.
Defined.

(** Whatever the state, a call of [add] or [add_array] that returns,
    returns its argument. *)
Lemma accept_result self a w r w' : accept self a w = Ok r w' → r = arg_of a.
Proof.
  destruct (pools w !! self) as [P|] eqn:HP.
  - destruct a; simpl; unfold add, add_array, lock_guard, emplace_back, lock_guard_end;
      munfold; rewrite HP; simpl; destruct (_lock P); simpl; try done;
      rewrite !lookup_insert_eq; simpl; rewrite !lookup_insert_eq; simpl; congruence.
  - by rewrite accept_no_pool.
Qed.

(** C9 — The acceptances return their argument.  [add<T>(t)] and
    [add_array<T>(t)] return, and what they return is [t]. *)
Theorem accept_returns_argument self w P T t :
  pools w !! self = Some P →
  _lock P = false →
  (∃ w1, add self T t w = Ok t w1)
  ∧ (∃ w1, add_array self T t w = Ok t w1)
  ∧ (∀ v r w1, add self T t v = Ok r w1 → r = t)
  ∧ (∀ v r w1, add_array self T t v = Ok r w1 → r = t).
Proof.
  intros HP HL.
  split; [rewrite (add_eq self w P HP HL); by eexists|].
  split; [rewrite (add_array_eq self w P HP HL); by eexists|].
  split; intros v r w1 H.
  - apply (accept_result self (accept_object T t) v r w1 H).
  - apply (accept_result self (accept_array T t) v r w1 H).
Qed.

Lemma accept_returns_argument_witness :
  (∃ w1, add 2%nat "Row" 64 two_pools = Ok 64 w1)
  ∧ (∃ w1, add_array 2%nat "Row" 64 two_pools = Ok 64 w1)
  ∧ (∀ v r w1, add 2%nat "Row" 64 v = Ok r w1 → r = 64)
  ∧ (∀ v r w1, add_array 2%nat "Row" 64 v = Ok r w1 → r = 64).
Proof.
  apply (accept_returns_argument 2%nat two_pools
           (mkPool [mkElement 32 (delete_array "Cell")] false) "Row" 64); reflexivity.
Defined.

(** C10 — An acceptance appends exactly one entry.  For every pool
    between operations and every acceptance (null pointers and
    pointers the pool already holds included), the vector afterwards
    is the old vector followed by the one new entry: every old entry
    is where it was, no other pool changes, and [size()] is one more
    than before (the vector fitting [uint64_t]). *)
Theorem accept_appends_one self w P a :
  pools w !! self = Some P →
  _lock P = false →
  Z.of_nat (length (_objects P)) + 1 < 2 ^ 64 →
  ∃ w1 n v1 v2,
    size self w = Ok n v1
    ∧ accept self a w = Ok (arg_of a) w1
    ∧ size self w1 = Ok (n + 1) v2
    ∧ pools w1 = <[self := mkPool (_objects P ++ [entry_of a]) false]> (pools w)
    ∧ (∀ P1, pools w1 !! self = Some P1 →
         length (_objects P1) = S (length (_objects P))
         ∧ (∀ i e, _objects P !! i = Some e → _objects P1 !! i = Some e)
         ∧ _objects P1 !! length (_objects P) = Some (entry_of a))
    ∧ (∀ q, q ≠ self → pools w1 !! q = pools w !! q).
Proof.
  intros HP HL Hfit.
  rewrite (size_eq self w P HP HL), (accept_eq self w P HP HL).
  eexists _, _, _, _. split; [done|]. split; [done|].
  erewrite size_eq by pool_here. simpl.
  split.
  { rewrite length_app. simpl. unfold to_uint64.
    rewrite !Z.mod_small by lia. f_equal. lia. }
  split; [done|].
  split.
  - intros P1. rewrite lookup_insert_eq. intros [= <-]. simpl.
    split; [rewrite length_app; simpl; lia|].
    split.
    + intros i e Hi. by apply lookup_app_l_Some.
    + by rewrite list_lookup_middle.
  - intros q Hq. by rewrite lookup_insert_ne.
Qed.

Lemma accept_appends_one_witness :
  ∃ w1 n v1 v2,
    size 1%nat two_pools = Ok n v1
    ∧ accept 1%nat (accept_object "Row" 16) two_pools = Ok 16 w1
    ∧ size 1%nat w1 = Ok (n + 1) v2
    ∧ pools w1 =
        <[1%nat := mkPool ([mkElement 16 (delete_scalar "Row")] ++
                           [mkElement 16 (delete_scalar "Row")]) false]> (pools two_pools)
    ∧ (∀ P1, pools w1 !! 1%nat = Some P1 →
         length (_objects P1) = 2%nat
         ∧ (∀ i e, [mkElement 16 (delete_scalar "Row")] !! i = Some e →
                   _objects P1 !! i = Some e)
         ∧ _objects P1 !! 1%nat = Some (mkElement 16 (delete_scalar "Row")))
    ∧ (∀ q, q ≠ 1%nat → pools w1 !! q = pools two_pools !! q).
Proof.
  apply (accept_appends_one 1%nat two_pools
           (mkPool [mkElement 16 (delete_scalar "Row")] false)
           (accept_object "Row" 16)); [reflexivity | reflexivity | simpl; lia].
Defined.

(** ** Programs over several pools: the counts *)

Lemma counted_start : counted (λ _, 0%nat) start.
Proof. intros p P. unfold start; simpl. by rewrite lookup_empty. Qed.

Lemma counted_insert c w p P' n tr :
  counted c w → _lock P' = false → length (_objects P') = n →
  counted (set_count p n c) (mkWorld (<[p := P']> (pools w)) tr).
Proof.
  intros Hc HL Hn q Q. simpl. unfold set_count.
  destruct (decide (q = p)) as [->|Hq].
  - rewrite lookup_insert_eq. by intros [= <-].
  - rewrite lookup_insert_ne by done. apply Hc.
Qed.

Lemma counted_delete c w p tr :
  counted c w → counted (set_count p 0%nat c) (mkWorld (delete p (pools w)) tr).
Proof.
  intros Hc q Q. simpl. unfold set_count.
  destruct (decide (q = p)) as [->|Hq].
  - by rewrite lookup_delete_eq.
  - rewrite lookup_delete_ne by done. apply Hc.
Qed.

Lemma counted_same c w ps tr :
  counted c w → ps = pools w → counted c (mkWorld ps tr).
Proof. intros Hc -> q Q. apply Hc. Qed.

Lemma counted_step c o w w' :
  counted c w → step o w = Ok tt w' → counted (owned_step c o) w'.
Proof.
  intros Hc. destruct o as [p|p a|p|p src|p|p]; simpl.
  - unfold construct. destruct (pools w !! p) eqn:HP; [done|].
    unfold put_pool. intros [= <-]. by apply counted_insert.
  - destruct (pools w !! p) as [P|] eqn:HP.
    + destruct (Hc p P HP) as [HL Hn]. unfold mbind, M_bind.
      rewrite (accept_eq p w P HP HL). intros [= <-].
      apply counted_insert; [done..|]. simpl. rewrite length_app. simpl. lia.
    + unfold mbind, M_bind. by rewrite accept_no_pool.
  - destruct (pools w !! p) as [P|] eqn:HP.
    + destruct (Hc p P HP) as [HL Hn].
      rewrite (clear_eq p w P HP HL). intros [= <-]. by apply counted_insert.
    + by rewrite clear_no_pool.
  - destruct (decide (p = src)) as [->|Hne]; [by rewrite acquire_data_self|].
    destruct (pools w !! p) as [A|] eqn:HA;
      [|by destruct (acquire_data_no_pool p src w (or_introl HA)) as [f ->]].
    destruct (pools w !! src) as [B|] eqn:HB;
      [|by destruct (acquire_data_no_pool p src w (or_intror HB)) as [f ->]].
    destruct (Hc p A HA) as [LA NA]. destruct (Hc src B HB) as [LB NB].
    rewrite (acquire_data_eq p src w A B Hne HA HB), LA, LB. intros [= <-].
    assert (Hmid : counted (set_count p (c p + c src)%nat c)
              (mkWorld (<[p := mkPool (_objects A ++ _objects B) false]> (pools w)) (trace w))).
    { apply counted_insert; [done..|]. simpl. rewrite length_app. lia. }
    exact (counted_insert _ _ src (mkPool [] false) 0%nat _ Hmid eq_refl eq_refl).
  - destruct (pools w !! p) as [P|] eqn:HP.
    + destruct (Hc p P HP) as [HL Hn]. unfold mbind, M_bind.
      rewrite (size_eq p w P HP HL). intros [= <-]. by eapply counted_same.
    + unfold mbind, M_bind. by rewrite size_no_pool.
  - destruct (pools w !! p) as [P|] eqn:HP.
    + destruct (Hc p P HP) as [HL Hn].
      rewrite (destroy_eq p w P HP HL). intros [= <-]. by apply counted_delete.
    + by rewrite destroy_no_pool.
Qed.

Lemma counted_run ops : ∀ c w w',
  counted c w → run ops w = Ok tt w' → counted (fold_left owned_step ops c) w'.
Proof.
  induction ops as [|o ops IH]; intros c w w' Hc; simpl.
  - unfold mret, M_ret. by intros [= <-].
  - unfold run in *. cbn [for_each]. unfold mbind, M_bind.
    destruct (step o w) as [[] w1|f] eqn:Hstep; [|done].
    intros Hrun. apply (IH _ w1 w'); [|exact Hrun].
    exact (counted_step c o w w1 Hc Hstep).
Qed.

(** ** Programs over several pools: nothing lost, nothing released twice *)

Lemma held_in_insert_fresh (m : gmap pool_id ObjectPool) p P :
  m !! p = None → held_in (<[p := P]> m) ≡ₚ _objects P ++ held_in m.
Proof.
  intros H. unfold held_in. rewrite map_to_list_insert by done.
  by rewrite bind_cons.
Qed.

Lemma held_in_update (m : gmap pool_id ObjectPool) p P :
  held_in (<[p := P]> m) ≡ₚ _objects P ++ held_in (delete p m).
Proof.
  rewrite <- insert_delete_eq. apply held_in_insert_fresh, lookup_delete_eq.
Qed.

Lemma held_in_lookup (m : gmap pool_id ObjectPool) p P :
  m !! p = Some P → held_in m ≡ₚ _objects P ++ held_in (delete p m).
Proof.
  intros H. rewrite <- (insert_id m p P H) at 1. apply held_in_update.
Qed.

Lemma conservation_step c o w w' :
  counted c w → step o w = Ok tt w' →
  calls (trace w') ++ held_in (pools w')
  ≡ₚ calls (trace w) ++ held_in (pools w) ++ accepted_in [o].
Proof.
  intros Hc. destruct o as [p|p a|p|p src|p|p]; simpl.
  - unfold construct. destruct (pools w !! p) eqn:HP; [done|].
    unfold put_pool. intros [= <-]. simpl.
    by rewrite held_in_insert_fresh, app_nil_r.
  - destruct (pools w !! p) as [P|] eqn:HP.
    + destruct (Hc p P HP) as [HL _]. unfold mbind, M_bind.
      rewrite (accept_eq p w P HP HL). intros [= <-]. simpl.
      rewrite calls_app, app_nil_r, held_in_update, (held_in_lookup _ p P HP). simpl.
      apply Permutation_app_head. rewrite <- !app_assoc.
      apply Permutation_app_head, Permutation_app_comm.
    + unfold mbind, M_bind. by rewrite accept_no_pool.
  - destruct (pools w !! p) as [P|] eqn:HP.
    + destruct (Hc p P HP) as [HL _].
      rewrite (clear_eq p w P HP HL). intros [= <-]. simpl.
      rewrite calls_app, calls_clear_events, held_in_update, (held_in_lookup _ p P HP).
      simpl. rewrite app_nil_r, <- app_assoc.
      apply Permutation_app_head. by rewrite <- Permutation_rev.
    + by rewrite clear_no_pool.
  - destruct (decide (p = src)) as [->|Hne]; [by rewrite acquire_data_self|].
    destruct (pools w !! p) as [A|] eqn:HA;
      [|by destruct (acquire_data_no_pool p src w (or_introl HA)) as [f ->]].
    destruct (pools w !! src) as [B|] eqn:HB;
      [|by destruct (acquire_data_no_pool p src w (or_intror HB)) as [f ->]].
    rewrite (acquire_data_eq p src w A B Hne HA HB). intros [= <-]. simpl.
    rewrite calls_app, !app_nil_r. apply Permutation_app_head.
    rewrite held_in_update. simpl.
    rewrite delete_insert_ne by done. rewrite held_in_update. simpl.
    rewrite (held_in_lookup _ src B HB).
    rewrite (held_in_lookup (delete src (pools w)) p A)
      by (by rewrite lookup_delete_ne).
    rewrite (app_assoc (_objects B)).
    apply Permutation_app_tail, Permutation_app_comm.
  - destruct (pools w !! p) as [P|] eqn:HP.
    + destruct (Hc p P HP) as [HL _]. unfold mbind, M_bind.
      rewrite (size_eq p w P HP HL). intros [= <-]. simpl.
      by rewrite calls_app, !app_nil_r.
    + unfold mbind, M_bind. by rewrite size_no_pool.
  - destruct (pools w !! p) as [P|] eqn:HP.
    + destruct (Hc p P HP) as [HL _].
      rewrite (destroy_eq p w P HP HL). intros [= <-]. simpl.
      rewrite calls_app, calls_clear_events, (held_in_lookup _ p P HP).
      rewrite app_nil_r, <- app_assoc.
      apply Permutation_app_head. by rewrite <- Permutation_rev.
    + by rewrite destroy_no_pool.
Qed.

Lemma accepted_in_cons o ops : accepted_in (o :: ops) = accepted_in [o] ++ accepted_in ops.
Proof. destruct o; simpl; done. Qed.

Lemma conservation_run ops : ∀ c w w',
  counted c w → run ops w = Ok tt w' →
  calls (trace w') ++ held_in (pools w')
  ≡ₚ calls (trace w) ++ held_in (pools w) ++ accepted_in ops.
Proof.
  induction ops as [|o ops IH]; intros c w w' Hc.
  - unfold run; simpl. unfold mret, M_ret. intros [= <-]. by rewrite app_nil_r.
  - unfold run in *. cbn [for_each]. unfold mbind, M_bind.
    destruct (step o w) as [[] w1|f] eqn:Hstep; [|done].
    intros Hrun.
    rewrite (IH _ w1 w' (counted_step c o w w1 Hc Hstep) Hrun).
    rewrite app_assoc, (conservation_step c o w w1 Hc Hstep).
    rewrite (accepted_in_cons o ops). by rewrite <- !app_assoc.
Qed.

(** X7 — Nothing lost, nothing released twice, program-wide.  Over a
    whole program on any number of pools, transfers included: the
    deletion-function calls made so far, together with the entries
    still held in some pool, are the accepted entries, each once; when
    every pool has been destroyed, the calls are the accepted entries. *)
Lemma program_conservation ops w :
  run ops start = Ok tt w →
  calls (trace w) ++ held_in (pools w) ≡ₚ accepted_in ops
  ∧ (pools w = ∅ → calls (trace w) ≡ₚ accepted_in ops).
Proof.
  intros Hrun.
  pose proof (conservation_run ops _ start w counted_start Hrun) as H.
  simpl in H. unfold held_in in H at 2. rewrite map_to_list_empty in H. simpl in H.
  split; [done|]. intros He. rewrite He in H.
  unfold held_in in H. rewrite map_to_list_empty in H. by rewrite app_nil_r in H.
Qed.

Lemma program_conservation_witness :
  run (donation ++ [OpDestroy 2%nat; OpDestroy 1%nat]) start =
    Ok tt (mkWorld ∅
             ([EvLock 2%nat; EvVec 2%nat; EvUnlock 2%nat; EvVec 2%nat; EvVec 1%nat; EvVec 2%nat]
              ++ clear_events 2%nat []
              ++ clear_events 1%nat [mkElement 16 (delete_scalar "Row")]))
  ∧ calls ([EvLock 2%nat; EvVec 2%nat; EvUnlock 2%nat; EvVec 2%nat; EvVec 1%nat; EvVec 2%nat]
           ++ clear_events 2%nat []
           ++ clear_events 1%nat [mkElement 16 (delete_scalar "Row")])
    ≡ₚ accepted_in (donation ++ [OpDestroy 2%nat; OpDestroy 1%nat]).
Proof.
  assert (Hrun : run (donation ++ [OpDestroy 2%nat; OpDestroy 1%nat]) start =
    Ok tt (mkWorld ∅
             ([EvLock 2%nat; EvVec 2%nat; EvUnlock 2%nat; EvVec 2%nat; EvVec 1%nat; EvVec 2%nat]
              ++ clear_events 2%nat []
              ++ clear_events 1%nat [mkElement 16 (delete_scalar "Row")])))
    by reflexivity.
  split; [exact Hrun|].
  exact (proj2 (program_conservation _ _ Hrun) eq_refl).
Defined.

(** As stated, C6 fails on a donor: pool 2 accepted one object, no
    deletion function has been called on anything, and [size()] on
    pool 2 says 0, because the entry went to pool 1. *)
Lemma size_after_donation :
  ∃ w v n,
    run donation start = Ok tt w
    ∧ handed_to 2%nat donation = 1%nat
    ∧ calls (trace w) = []
    ∧ size 2%nat w = Ok n v
    ∧ n = 0.
Proof.
  exists (mkWorld (<[2%nat := mkPool [] false]>
                    (<[1%nat := mkPool [mkElement 16 (delete_scalar "Row")] false]> ∅))
                  [EvLock 2%nat; EvVec 2%nat; EvUnlock 2%nat;
                   EvVec 2%nat; EvVec 1%nat; EvVec 2%nat]).
  eexists _, 0. split; [reflexivity|]. split; [reflexivity|]. split; [reflexivity|].
  split; [|reflexivity].
  by erewrite size_eq by pool_here.
Qed.

(** C6, amended — Size accounting.  After any program that runs
    without fault, [size()] on a live pool returns the number of
    entries the pool accepted (by [add], [add_array], or from a donor
    through [acquire_data]) and has neither released nor handed over
    to another pool through [acquire_data] (the number fitting
    [uint64_t]); right after [clear()] it returns 0, and on a newly
    constructed pool it returns 0. *)
Theorem size_accounting ops w p P :
  run ops start = Ok tt w →
  pools w !! p = Some P →
  Z.of_nat (owned ops p) < 2 ^ 64 →
  (∃ v, size p w = Ok (Z.of_nat (owned ops p)) v)
  ∧ length (_objects P) = owned ops p
  ∧ (∃ w1 v, clear p w = Ok tt w1 ∧ size p w1 = Ok 0 v)
  ∧ (∀ q, pools w !! q = None →
       ∃ w1 v, construct q w = Ok tt w1 ∧ size q w1 = Ok 0 v).
Proof.
  intros Hrun HP Hfit.
  destruct (counted_run ops _ start w counted_start Hrun p P HP) as [HL Hn].
  fold (owned ops p) in Hn.
  split; [|split; [done|split]].
  - rewrite (size_eq p w P HP HL), Hn. unfold to_uint64.
    rewrite Z.mod_small by lia. by eexists.
  - rewrite (clear_eq p w P HP HL). eexists _, _. split; [done|].
    by erewrite size_eq by pool_here.
  - intros q Hq. rewrite construct_eq by done. eexists _, _. split; [done|].
    by erewrite size_eq by pool_here.
Qed.

Lemma size_accounting_witness :
  run donation start = Ok tt
    (mkWorld (<[2%nat := mkPool [] false]>
                (<[1%nat := mkPool [mkElement 16 (delete_scalar "Row")] false]> ∅))
             [EvLock 2%nat; EvVec 2%nat; EvUnlock 2%nat; EvVec 2%nat; EvVec 1%nat; EvVec 2%nat])
  ∧ (∃ v, size 1%nat
            (mkWorld (<[2%nat := mkPool [] false]>
                        (<[1%nat := mkPool [mkElement 16 (delete_scalar "Row")] false]> ∅))
                     [EvLock 2%nat; EvVec 2%nat; EvUnlock 2%nat;
                      EvVec 2%nat; EvVec 1%nat; EvVec 2%nat])
          = Ok (Z.of_nat (owned donation 1%nat)) v)
  ∧ owned donation 1%nat = 1%nat
  ∧ owned donation 2%nat = 0%nat.
Proof.
  assert (Hrun : run donation start = Ok tt
    (mkWorld (<[2%nat := mkPool [] false]>
                (<[1%nat := mkPool [mkElement 16 (delete_scalar "Row")] false]> ∅))
             [EvLock 2%nat; EvVec 2%nat; EvUnlock 2%nat; EvVec 2%nat; EvVec 1%nat; EvVec 2%nat]))
    by reflexivity.
  split; [exact Hrun|].
  split; [|split; reflexivity].
  refine (proj1 (size_accounting donation _ 1%nat
                   (mkPool [mkElement 16 (delete_scalar "Row")] false) Hrun _ _));
    [reflexivity | vm_compute; reflexivity].
Defined.

(** ** Locking *)

(** X6 — Lock discipline of the locking members.  [add],
    [add_array], [clear()] and [size()] on a live idle pool touch the
    pool's vector only between taking its mutex and releasing it, and
    the mutex is free again when they return. *)
Lemma locking_members_guarded self w P a :
  pools w !! self = Some P →
  _lock P = false →
  ∃ r1 w1 w2 r3 w3,
    accept self a w = Ok r1 w1 ∧ (∃ tr, trace w1 = trace w ++ tr ∧ guarded [] tr = true)
    ∧ clear self w = Ok tt w2 ∧ (∃ tr, trace w2 = trace w ++ tr ∧ guarded [] tr = true)
    ∧ size self w = Ok r3 w3 ∧ (∃ tr, trace w3 = trace w ++ tr ∧ guarded [] tr = true)
    ∧ (∀ v Q, v ∈ [w1; w2; w3] → pools v !! self = Some Q → _lock Q = false).
Proof.
  intros HP HL.
  rewrite (accept_eq self w P HP HL), (clear_eq self w P HP HL), (size_eq self w P HP HL).
  eexists _, _, _, _, _.
  split; [done|]. split; [eexists; split; [done|apply accept_events_guarded]|].
  split; [done|]. split; [eexists; split; [done|apply clear_events_guarded]|].
  split; [done|]. split; [eexists; split; [done|apply accept_events_guarded]|].
  intros v Q. rewrite !elem_of_cons, elem_of_nil.
  intros [->|[->|[->|[]]]] HQ; simpl in HQ; rewrite ?lookup_insert_eq in HQ;
    by simplify_eq.
Qed.

Lemma locking_members_guarded_witness :
  ∃ r1 w1 w2 r3 w3,
    accept 1%nat (accept_array "Cell" 64) two_pools = Ok r1 w1
    ∧ (∃ tr, trace w1 = trace two_pools ++ tr ∧ guarded [] tr = true)
    ∧ clear 1%nat two_pools = Ok tt w2
    ∧ (∃ tr, trace w2 = trace two_pools ++ tr ∧ guarded [] tr = true)
    ∧ size 1%nat two_pools = Ok r3 w3
    ∧ (∃ tr, trace w3 = trace two_pools ++ tr ∧ guarded [] tr = true)
    ∧ (∀ v Q, v ∈ [w1; w2; w3] → pools v !! 1%nat = Some Q → _lock Q = false).
Proof.
  apply (locking_members_guarded 1%nat two_pools
           (mkPool [mkElement 16 (delete_scalar "Row")] false)
           (accept_array "Cell" 64)); reflexivity.
Defined.

(** [acquire_data] takes no lock at all: whatever the two pools hold,
    it touches both vectors with both mutexes free. *)
Lemma acquire_data_unguarded self src w A B :
  self ≠ src →
  pools w !! self = Some A →
  pools w !! src = Some B →
  ∃ w1 tr,
    acquire_data self src w = Ok tt w1
    ∧ trace w1 = trace w ++ tr
    ∧ tr = [EvVec src; EvVec self; EvVec src]
    ∧ guarded [] tr = false
    ∧ (∀ Q, pools w1 !! self = Some Q → _lock Q = _lock A).
Proof.
  intros Hne HA HB. rewrite (acquire_data_eq self src w A B Hne HA HB).
  eexists _, _. split; [done|]. split; [done|]. split; [done|]. split; [done|].
  intros Q. simpl. rewrite lookup_insert_ne by done. rewrite lookup_insert_eq.
  by intros [= <-].
Qed.

(** C5 — On two idle pools with one entry each, [acquire_data] on
    pool 1 with donor pool 2 moves the entry while neither mutex is
    taken: the receiving pool's vector is written with its lock free. *)
Lemma acquire_data_takes_no_lock :
  ∃ w1,
    acquire_data 1%nat 2%nat two_pools = Ok tt w1
    ∧ trace w1 = [EvVec 2%nat; EvVec 1%nat; EvVec 2%nat]
    ∧ guarded [] (trace w1) = false
    ∧ pools w1 !! 1%nat =
        Some (mkPool [mkElement 16 (delete_scalar "Row"); mkElement 32 (delete_array "Cell")] false).
Proof.
  destruct (acquire_data_unguarded 1%nat 2%nat two_pools
              (mkPool [mkElement 16 (delete_scalar "Row")] false)
              (mkPool [mkElement 32 (delete_array "Cell")] false))
    as (w1 & tr & E & Htr & -> & Hg & _); [lia | reflexivity | reflexivity |].
  exists w1. split; [done|]. split; [by rewrite Htr|]. split; [by rewrite Htr|].
  revert E. erewrite acquire_data_eq; [|lia|reflexivity|reflexivity].
  intros [= <-]. reflexivity.
Qed.

(** ** The destructor *)



(** X2 — Transferred entries outlive the donor.  After
    [A.acquire_data(&B)], destroying B calls no deletion function and
    leaves A holding its own entries followed by B's; destroying A
    afterwards calls the deletion functions of B's former entries and
    then of A's own, each group last accepted first. *)
Theorem transfer_outlives_donor self src w A B :
  self ≠ src →
  pools w !! self = Some A →
  pools w !! src = Some B →
  _lock A = false →
  _lock B = false →
  ∃ w1 w2,
    (acquire_data self src ;; destroy src) w = Ok tt w1
    ∧ calls (trace w1) = calls (trace w)
    ∧ pools w1 !! src = None
    ∧ pools w1 !! self = Some (mkPool (_objects A ++ _objects B) false)
    ∧ destroy self w1 = Ok tt w2
    ∧ calls (trace w2) = calls (trace w) ++ rev (_objects B) ++ rev (_objects A).
Proof.
  intros Hne HA HB LA LB. unfold mbind, M_bind.
  rewrite (acquire_data_eq self src w A B Hne HA HB), LA, LB.
  erewrite destroy_eq by pool_here. simpl.
  eexists _, _. split; [done|]. simpl.
  split. { rewrite !calls_app, calls_clear_events. simpl. by rewrite !app_nil_r. }
  split; [apply lookup_delete_eq|].
  assert (Hself : delete src (<[src := mkPool [] false]>
                    (<[self := mkPool (_objects A ++ _objects B) false]> (pools w)))
                  !! self = Some (mkPool (_objects A ++ _objects B) false)).
  { rewrite lookup_delete_ne by done. rewrite lookup_insert_ne by done.
    apply lookup_insert_eq. }
  split; [exact Hself|].
  erewrite destroy_eq; [|exact Hself|done]. split; [done|]. simpl.
  rewrite !calls_app, !calls_clear_events. simpl.
  by rewrite !app_nil_r, rev_app_distr.
Qed.

Lemma transfer_outlives_donor_witness :
  ∃ w1 w2,
    (acquire_data 1%nat 2%nat ;; destroy 2%nat) two_pools = Ok tt w1
    ∧ calls (trace w1) = calls (trace two_pools)
    ∧ pools w1 !! 2%nat = None
    ∧ pools w1 !! 1%nat =
        Some (mkPool ([mkElement 16 (delete_scalar "Row")] ++
                      [mkElement 32 (delete_array "Cell")]) false)
    ∧ destroy 1%nat w1 = Ok tt w2
    ∧ calls (trace w2) =
        calls (trace two_pools) ++ rev [mkElement 32 (delete_array "Cell")]
                                ++ rev [mkElement 16 (delete_scalar "Row")].
Proof.
  apply (transfer_outlives_donor 1%nat 2%nat two_pools
           (mkPool [mkElement 16 (delete_scalar "Row")] false)
           (mkPool [mkElement 32 (delete_array "Cell")] false));
    [lia | reflexivity | reflexivity | reflexivity | reflexivity].
Defined.

(** ** Transfers *)

(** X3 — [acquire_data] never locks.  On two distinct live pools
    [acquire_data] returns whatever the state of their mutexes, even
    held: it takes and releases no mutex, leaves both mutexes as they
    were, and touches both vectors outside any lock. *)
Theorem acquire_data_never_locks self src w A B :
  self ≠ src →
  pools w !! self = Some A →
  pools w !! src = Some B →
  ∃ w1 tr,
    acquire_data self src w = Ok tt w1
    ∧ trace w1 = trace w ++ tr
    ∧ (∀ p, (EvLock p ∉ tr) ∧ (EvUnlock p ∉ tr))
    ∧ guarded [] tr = false
    ∧ pools w1 !! self = Some (mkPool (_objects A ++ _objects B) (_lock A))
    ∧ pools w1 !! src = Some (mkPool [] (_lock B)).
Proof.
  intros Hne HA HB. rewrite (acquire_data_eq self src w A B Hne HA HB).
  eexists _, _. split; [done|]. simpl. split; [done|].
  split. { intros p. split; rewrite !elem_of_cons, elem_of_nil; intros [?|[?|[?|[]]]]; discriminate. }
  split; [done|].
  split; [|apply lookup_insert_eq].
  rewrite lookup_insert_ne by done. apply lookup_insert_eq.
Qed.

Lemma acquire_data_never_locks_witness :
  ∃ w1 tr,
    acquire_data 3%nat 1%nat three_pools = Ok tt w1
    ∧ trace w1 = trace three_pools ++ tr
    ∧ (∀ p, (EvLock p ∉ tr) ∧ (EvUnlock p ∉ tr))
    ∧ guarded [] tr = false
    ∧ pools w1 !! 3%nat =
        Some (mkPool ([mkElement 48 (delete_scalar "Row")] ++
                      [mkElement 16 (delete_scalar "Row")]) true)
    ∧ pools w1 !! 1%nat = Some (mkPool [] false).
Proof.
  apply (acquire_data_never_locks 3%nat 1%nat three_pools
           (mkPool [mkElement 48 (delete_scalar "Row")] true)
           (mkPool [mkElement 16 (delete_scalar "Row")] false));
    [lia | reflexivity | reflexivity].
Defined.

(** X4 — Merging is associative.  For three distinct pools A, B, C,
    draining B and then C into A leaves the same pools as draining C
    into B and then B into A: A holds A's, B's and C's entries in this
    order, B and C are empty, and no deletion function is called. *)
Theorem acquire_data_assoc a b c w A B C :
  a ≠ b → a ≠ c → b ≠ c →
  pools w !! a = Some A →
  pools w !! b = Some B →
  pools w !! c = Some C →
  ∃ w1 w2,
    (acquire_data a b ;; acquire_data a c) w = Ok tt w1
    ∧ (acquire_data b c ;; acquire_data a b) w = Ok tt w2
    ∧ pools w1 = pools w2
    ∧ pools w1 !! a = Some (mkPool (_objects A ++ _objects B ++ _objects C) (_lock A))
    ∧ pools w1 !! b = Some (mkPool [] (_lock B))
    ∧ pools w1 !! c = Some (mkPool [] (_lock C))
    ∧ calls (trace w1) = calls (trace w)
    ∧ calls (trace w2) = calls (trace w).
Proof.
  intros Hab Hac Hbc HA HB HC. unfold mbind, M_bind.
  rewrite (acquire_data_eq a b w A B Hab HA HB).
  erewrite (acquire_data_eq a c _ (mkPool (_objects A ++ _objects B) (_lock A)) C Hac);
    [|simpl; rewrite lookup_insert_ne by done; apply lookup_insert_eq
     |simpl; by rewrite !lookup_insert_ne].
  rewrite (acquire_data_eq b c w B C Hbc HB HC).
  erewrite (acquire_data_eq a b _ A (mkPool (_objects B ++ _objects C) (_lock B)) Hab);
    [|simpl; by rewrite !lookup_insert_ne
     |simpl; rewrite lookup_insert_ne by done; apply lookup_insert_eq].
  eexists _, _. split; [done|]. split; [done|]. simpl.
  split.
  { apply map_eq. intros k. rewrite !lookup_insert.
    repeat case_decide; subst; simpl; try done. by rewrite app_assoc. }
  split. { rewrite !lookup_insert. repeat case_decide; subst; simpl; try done.
           by rewrite app_assoc. }
  split. { rewrite !lookup_insert. repeat case_decide; subst; simpl; done. }
  split. { rewrite !lookup_insert. repeat case_decide; subst; simpl; done. }
  rewrite !calls_app. simpl. by rewrite !app_nil_r.
Qed.

Lemma acquire_data_assoc_witness :
  ∃ w1 w2,
    (acquire_data 1%nat 2%nat ;; acquire_data 1%nat 3%nat) three_pools = Ok tt w1
    ∧ (acquire_data 2%nat 3%nat ;; acquire_data 1%nat 2%nat) three_pools = Ok tt w2
    ∧ pools w1 = pools w2
    ∧ pools w1 !! 1%nat =
        Some (mkPool ([mkElement 16 (delete_scalar "Row")] ++
                      [mkElement 32 (delete_array "Cell")] ++
                      [mkElement 48 (delete_scalar "Row")]) false)
    ∧ pools w1 !! 2%nat = Some (mkPool [] false)
    ∧ pools w1 !! 3%nat = Some (mkPool [] true)
    ∧ calls (trace w1) = calls (trace three_pools)
    ∧ calls (trace w2) = calls (trace three_pools).
Proof.
  apply (acquire_data_assoc 1%nat 2%nat 3%nat three_pools
           (mkPool [mkElement 16 (delete_scalar "Row")] false)
           (mkPool [mkElement 32 (delete_array "Cell")] false)
           (mkPool [mkElement 48 (delete_scalar "Row")] true));
    [lia | lia | lia | reflexivity | reflexivity | reflexivity].
Defined.

(** ** Size *)

(** X5 — [size()] only reads.  On a live idle pool [size()] returns a
    value in the range of [uint64_t], changes no pool, calls no
    deletion function, and asked again returns the same value. *)
Theorem size_only_reads self w P :
  pools w !! self = Some P →
  _lock P = false →
  ∃ n w1 w2,
    size self w = Ok n w1
    ∧ 0 ≤ n < 2 ^ 64
    ∧ pools w1 = pools w
    ∧ calls (trace w1) = calls (trace w)
    ∧ size self w1 = Ok n w2.
Proof.
  intros HP HL. rewrite (size_eq self w P HP HL). eexists _, _, _. split; [done|].
  split; [apply Z.mod_pos_bound; lia|]. simpl.
  split; [done|].
  split; [by rewrite calls_app, app_nil_r|].
  by rewrite (size_eq self (mkWorld (pools w) _) P HP HL).
Qed.

Lemma size_only_reads_witness :
  ∃ n w1 w2,
    size 2%nat two_pools = Ok n w1
    ∧ 0 ≤ n < 2 ^ 64
    ∧ pools w1 = pools two_pools
    ∧ calls (trace w1) = calls (trace two_pools)
    ∧ size 2%nat w1 = Ok n w2.
Proof.
  apply (size_only_reads 2%nat two_pools (mkPool [mkElement 32 (delete_array "Cell")] false));
    reflexivity.
Defined.

(** ** Order and reach of the calls over a life *)

Lemma held_after_app ms1 : ∀ objs ms2,
  held_after objs (ms1 ++ ms2) = held_after (held_after objs ms1) ms2.
Proof. induction ms1 as [|[a| |] ms1 IH]; intros objs ms2; simpl; auto. Qed.

Lemma released_by_app ms1 : ∀ objs ms2,
  released_by objs (ms1 ++ ms2)
  = released_by objs ms1 ++ released_by (held_after objs ms1) ms2.
Proof.
  induction ms1 as [|[a| |] ms1 IH]; intros objs ms2; simpl; auto.
  by rewrite IH, app_assoc.
Qed.

Lemma held_after_batches bs : ∀ objs ms,
  bs ≠ [] → held_after objs (concat (map batch bs) ++ ms) = held_after [] ms.
Proof.
  induction bs as [|b bs IH]; intros objs ms Hne; [done|]. simpl.
  unfold batch at 1. rewrite <- !app_assoc, held_after_app, held_after_accepts. simpl.
  destruct bs as [|b' bs]; [done|]. by apply IH.
Qed.

Lemma released_by_batches bs : ∀ objs ms,
  released_by objs (concat (map batch bs) ++ ms)
  = match bs with
    | [] => released_by objs ms
    | b :: bs' => rev (objs ++ map entry_of b)
                  ++ concat (map (λ b, rev (map entry_of b)) bs')
                  ++ released_by [] ms
    end.
Proof.
  induction bs as [|b bs IH]; intros objs ms; [done|]. simpl.
  unfold batch at 1. rewrite <- !app_assoc, released_by_app, released_by_accepts,
    held_after_accepts. simpl. f_equal.
  rewrite IH. destruct bs as [|b' bs]; simpl; [done|]. by rewrite <- app_assoc.
Qed.

(** X8 — Release order over a life with explicit clears.  When a pool
    is constructed, filled and cleared batch after batch, filled once
    more and destroyed, the deletion functions are called batch by
    batch in the order of the batches, and within each batch in the
    reverse of the order of acceptance; no clear reaches back into an
    earlier batch. *)
Theorem release_order_by_batch self bs last w :
  pools w !! self = None →
  ∃ w1,
    lifetime self (concat (map batch bs) ++ map CallAccept last) w = Ok tt w1
    ∧ calls (trace w1)
      = calls (trace w) ++ concat (map (λ b, rev (map entry_of b)) bs)
                        ++ rev (map entry_of last)
    ∧ pools w1 = pools w.
Proof.
  intros Hnew.
  destruct (used_pool_eq self (concat (map batch bs) ++ map CallAccept last) w Hnew)
    as (tr & E & C).
  unfold lifetime, mbind, M_bind. unfold mbind, M_bind in E.
  destruct (construct self w) as [[] w0|f]; [|done].
  rewrite E. erewrite destroy_eq by pool_here.
  eexists. split; [done|]. simpl.
  split.
  - rewrite !calls_app, calls_clear_events, C, <- app_assoc. f_equal.
    rewrite released_by_batches.
    destruct bs as [|b bs].
    + simpl. by rewrite released_by_accepts, held_after_accepts.
    + rewrite held_after_batches by done.
      rewrite released_by_accepts, held_after_accepts. simpl.
      by rewrite app_nil_r, <- !app_assoc.
  - rewrite delete_insert_eq. by apply delete_id.
Qed.

Lemma release_order_by_batch_witness :
  ∃ w1,
    lifetime 1%nat
      (concat (map batch [[accept_object "Row" 16; accept_array "Cell" 32];
                          [accept_object "Row" 48]])
       ++ map CallAccept [accept_object "Row" 64; accept_object "Row" 80]) start = Ok tt w1
    ∧ calls (trace w1)
      = calls (trace start)
        ++ concat (map (λ b, rev (map entry_of b))
                     [[accept_object "Row" 16; accept_array "Cell" 32];
                      [accept_object "Row" 48]])
        ++ rev (map entry_of [accept_object "Row" 64; accept_object "Row" 80])
    ∧ pools w1 = pools start.
Proof.
  apply (release_order_by_batch 1%nat
           [[accept_object "Row" 16; accept_array "Cell" 32]; [accept_object "Row" 48]]
           [accept_object "Row" 64; accept_object "Row" 80] start).
  reflexivity.
Defined.



(** ** The calls of a clear on the free store *)

Lemma invoke_delete_fn_block fn p h :
  p ≠ nullptr →
  invoke_delete_fn fn p h
  = if decide (h !! p = Some (block_of fn)) then Some (delete p h) else None.
Proof.
  intros Hp. destruct fn; simpl; unfold delete_expr; rewrite decide_False by done;
    destruct (h !! p) as [b|]; repeat case_decide; simplify_eq; done.
Qed.

Lemma pointers_cons e cs :
  pointers (e :: cs) = if decide (obj e = nullptr) then pointers cs else obj e :: pointers cs.
Proof.
  unfold pointers. simpl. rewrite filter_cons.
  repeat case_decide; done.
Qed.

Lemma pointers_cons_null e cs : obj e = nullptr → pointers (e :: cs) = pointers cs.
Proof. intros H. rewrite pointers_cons. by case_decide. Qed.

Lemma pointers_cons_ptr e cs : obj e ≠ nullptr → pointers (e :: cs) = obj e :: pointers cs.
Proof. intros H. rewrite pointers_cons. by case_decide. Qed.

Lemma pointers_elem p cs : p ∈ pointers cs ↔ p ≠ nullptr ∧ ∃ e, e ∈ cs ∧ obj e = p.
Proof.
  unfold pointers. rewrite list_elem_of_filter, list_elem_of_In, in_map_iff.
  setoid_rewrite <- list_elem_of_In.
  split; intros (Hp & e & H1 & H2); eauto.
Qed.



(** Nothing else is defined: a pointer met twice, a dead block or a
    block of the other form ends in undefined behaviour. *)
Lemma run_calls_needs cs : ∀ h h',
  run_calls cs h = Some h' →
  NoDup (pointers cs)
  ∧ ∀ e, e ∈ cs → obj e ≠ nullptr → h !! obj e = Some (block_of (delete_fn e)).
Proof.
  induction cs as [|e cs IH]; intros h h'; simpl.
  - intros _. split; [apply NoDup_nil_2|]. intros e He. by apply elem_of_nil in He.
  - destruct (decide (obj e = nullptr)) as [Hnull|Hp].
    + rewrite pointers_cons_null by done.
      rewrite Hnull, invoke_delete_fn_null. simpl. intros Hrun.
      destruct (IH h h' Hrun) as [Hnd Hown]. split; [done|].
      intros e' [->|He']%elem_of_cons Hp'; [done|]. by apply Hown.
    + rewrite pointers_cons_ptr by done.
      rewrite invoke_delete_fn_block by done.
      case_decide as Hblk; [|done]. simpl. intros Hrun.
      destruct (IH _ h' Hrun) as [Hnd Hown].
      assert (Hlater : ∀ e', e' ∈ cs → obj e' ≠ nullptr →
                obj e' ≠ obj e ∧ h !! obj e' = Some (block_of (delete_fn e'))).
      { intros e' He' Hp'. specialize (Hown e' He' Hp').
        apply lookup_delete_Some in Hown as [Hne Hl]. split; [congruence|done]. }
      split.
      * apply NoDup_cons. split; [|done].
        intros (Hp' & e' & He' & Heq)%pointers_elem.
        destruct (Hlater e' He') as [Hne _]; congruence.
      * intros e' [->|He']%elem_of_cons Hp'; [done|]. by apply Hlater.
Qed.



(** X11 — No deduplication: a pointer accepted twice is deleted
    twice.  When the same non-null pointer is handed to a pool twice,
    by either acceptance, both entries are kept, the next [clear()]
    calls a deletion function on the pointer once per entry, and on
    every free store the second of these calls is undefined. *)
Theorem double_registration_undefined self w P a b :
  pools w !! self = Some P →
  _lock P = false →
  arg_of a = arg_of b →
  arg_of a ≠ nullptr →
  ∃ w1 cs,
    (accept self a ;; accept self b ;; clear self) w = Ok tt w1
    ∧ calls (trace w1) = calls (trace w) ++ cs
    ∧ cs = entry_of b :: entry_of a :: rev (_objects P)
    ∧ ∀ h, run_calls cs h = None.
Proof.
  intros HP HL Hab Hp. unfold mbind, M_bind.
  rewrite (accept_eq self w P HP HL).
  erewrite accept_eq by pool_here. simpl.
  erewrite clear_eq by pool_here. simpl.
  eexists _, (entry_of b :: entry_of a :: rev (_objects P)). split; [done|]. simpl.
  split.
  { rewrite !calls_app, calls_clear_events. simpl.
    by rewrite !app_nil_r, !rev_app_distr. }
  split; [done|]. intros h.
  destruct (run_calls (entry_of b :: entry_of a :: rev (_objects P)) h)
    as [h'|] eqn:Hrun; [exfalso|done].
  apply run_calls_needs in Hrun as [Hnd _].
  assert (Ha : obj (entry_of a) = arg_of a) by (by destruct a).
  assert (Hb : obj (entry_of b) = arg_of a) by (rewrite Hab; by destruct b).
  rewrite pointers_cons_ptr in Hnd by congruence.
  rewrite pointers_cons_ptr in Hnd by congruence.
  apply NoDup_cons in Hnd as [Hnotin _]. apply Hnotin.
  rewrite Hb, Ha. by left.
Qed.

Lemma double_registration_undefined_witness :
  ∃ w1 cs,
    (accept 1%nat (accept_object "Row" 64) ;; accept 1%nat (accept_array "Row" 64) ;;
     clear 1%nat) two_pools = Ok tt w1
    ∧ calls (trace w1) = calls (trace two_pools) ++ cs
    ∧ cs = entry_of (accept_array "Row" 64) :: entry_of (accept_object "Row" 64)
           :: rev [mkElement 16 (delete_scalar "Row")]
    ∧ ∀ h, run_calls cs h = None.
Proof.
  apply (double_registration_undefined 1%nat two_pools
           (mkPool [mkElement 16 (delete_scalar "Row")] false)
           (accept_object "Row" 64) (accept_array "Row" 64));
    [reflexivity | reflexivity | reflexivity | discriminate].
Defined.
